(** * phase2_replacements.py: the two-rule source patcher

    A shallow embedding of [src/phase2_replacements.py].  The script reads
    [src/lib/supabasePipeline.ts], rebinds the variable [content] twice with
    [re.sub], writes the file back and prints a confirmation.

    - A Python [str] is a sequence of Unicode code points: [text] is a list
      of code points ([N]).
    - [re.sub] is modelled on the fragment of Python's [re] syntax in which
      both patterns of the script are written: ordinary characters and
      backslash-escaped punctuation.  Patterns outside that fragment are
      reported as [Beyond], never given a made-up meaning.
    - The interpreter state carries the target file, the variable [content]
      and the standard output; exceptions abort the run.
    - The environment says how much the disk takes of the file and which
      characters the standard output can encode: the write and the print
      fail where it does not allow them. *)

From Stdlib Require Import String Ascii.
From Stdlib Require Import List NArith Arith Bool Lia.
Import ListNotations.

(** ** Text *)

Definition char := N.
Definition text := list char.

(** The code points of an ASCII literal of the source. *)
Definition str (s : string) : text :=
  map N_of_ascii (list_ascii_of_string s).

Definition LF : char := 10%N.
Definition CR : char := 13%N.
Definition backslash : char := 92%N.

(** ** The literal matcher and the substitution loop of [re] *)

Module Re.

(** [starts_with p s]: the literal sequence [p] matches at the head of [s]. *)
Fixpoint starts_with (p s : text) : bool :=
  match p, s with
  | [], _ => true
  | _ :: _, [] => false
  | a :: p', b :: s' => (a =? b)%N && starts_with p' s'
  end.

(** One left-to-right pass of [pattern.subn]: at a position where the
    pattern matches, the replacement is emitted and the scan resumes after
    the match ([skip] counts the characters of the match still to pass);
    elsewhere the character is copied.  The second component counts the
    replacements.  An empty pattern matches before every character and at
    the end. *)
Fixpoint subn_from (p r : text) (skip : nat) (s : text) : text * nat :=
  match s with
  | [] => match p with [] => (r, 1) | _ :: _ => ([], 0) end
  | c :: s' =>
      match skip with
      | S k => subn_from p r k s'
      | O =>
          if starts_with p s then
            match p with
            | [] => let (o, n) := subn_from p r 0 s' in (r ++ c :: o, S n)
            | _ :: p' =>
                let (o, n) := subn_from p r (length p') s' in (r ++ o, S n)
            end
          else let (o, n) := subn_from p r 0 s' in (c :: o, n)
      end
  end.

Definition subn_lit (p r s : text) : text * nat := subn_from p r 0 s.
Definition sub_lit (p r s : text) : text := fst (subn_lit p r s).

(** [pattern.finditer]: the start offsets of the matches the same scan
    finds, [pos] being the offset of the head of [s]. *)
Fixpoint finditer_from (p : text) (skip pos : nat) (s : text) : list nat :=
  match s with
  | [] => match p with [] => [pos] | _ :: _ => [] end
  | _ :: s' =>
      match skip with
      | S k => finditer_from p k (S pos) s'
      | O =>
          if starts_with p s then
            pos :: finditer_from p (length p - 1) (S pos) s'
          else finditer_from p 0 (S pos) s'
      end
  end.

Definition finditer (p s : text) : list nat := finditer_from p 0 0 s.

(** *** Compiling a pattern

    [sre_parse] on the fragment the script uses.  A character outside
    [SPECIAL_CHARS] is a literal; a backslash followed by a character that
    is not an ASCII letter or digit is that character; a backslash that
    ends the pattern and a closing parenthesis that closes nothing are
    rejected ([re.error], named [PatternError] since Python 3.13).  Every
    other construct (classes, groups, repeats, anchors, alternation,
    letter and digit escapes) is outside the fragment. *)

Inductive compiled : Type :=
| Literal (p : text)
| Malformed
| Unsupported.

Definition in_range (lo hi c : char) : bool := ((lo <=? c) && (c <=? hi))%N.

Definition is_ascii_alnum (c : char) : bool :=
  (in_range 48 57 c || in_range 65 90 c || in_range 97 122 c)%N.

(** [SPECIAL_CHARS = ".\\[{()*+?^$|"] *)
Definition SPECIAL_CHARS : text := [46; 92; 91; 123; 40; 41; 42; 43; 63; 94; 36; 124]%N.

Definition is_special (c : char) : bool := existsb (N.eqb c) SPECIAL_CHARS.

Definition rparen : char := 41%N.

Definition cons_literal (c : char) (k : compiled) : compiled :=
  match k with
  | Literal p => Literal (c :: p)
  | Malformed => Malformed
  | Unsupported => Unsupported
  end.

Fixpoint compile (pattern : text) : compiled :=
  match pattern with
  | [] => Literal []
  | c :: rest =>
      if (c =? backslash)%N then
        match rest with
        | [] => Malformed
        | d :: rest' =>
            if is_ascii_alnum d then Unsupported
            else cons_literal d (compile rest')
        end
      else if (c =? rparen)%N then Malformed
      else if is_special c then Unsupported
      else cons_literal c (compile rest)
  end.

(** A replacement string without a backslash is used as it stands; one
    with a backslash is a template, outside the fragment. *)
Definition is_literal_template (repl : text) : bool :=
  negb (existsb (N.eqb backslash) repl).

End Re.

(** ** Exceptions and the interpreter state *)

(** The exceptions the script can meet: [open] on a missing path, [open]
    on a path that may not be opened in the mode asked for, [re.error]
    from the compilation of a pattern, a write the device does not take
    in full, and a character the standard output cannot encode. *)
Inductive exn : Type :=
| FileNotFoundError
| PermissionError
| PatternError
| OSError
| UnicodeEncodeError.

(** The outcome of a step: a value, an uncaught exception, or [Beyond]
    when the step depends on a pattern or a replacement template outside
    the modelled fragment of [re]. *)
Inductive result (A : Type) : Type :=
| Ok (a : A)
| Raise (e : exn)
| Beyond.

Arguments Ok {A} a.
Arguments Raise {A} e.
Arguments Beyond {A}.

(** [re.sub(pattern, repl, string)]: the pattern is compiled first, then
    the replacement is examined, then the string is scanned. *)
Definition re_sub (pattern repl string : text) : result text :=
  match Re.compile pattern with
  | Re.Literal p =>
      if Re.is_literal_template repl then Ok (Re.sub_lit p repl string)
      else Beyond
  | Re.Malformed => Raise PatternError
  | Re.Unsupported => Beyond
  end.

(** The target file as the script sees it: whether it can be opened for
    reading and for writing, and its characters (its bytes decoded as
    UTF-8; the codec itself is not modelled). *)
Record file : Type := File {
  readable : bool;
  writable : bool;
  data : text
}.

Record state : Type := State {
  target : option file;      (* src/lib/supabasePipeline.ts *)
  content : option text;     (* the variable [content]; None: unbound *)
  stdout : list text         (* the lines printed so far *)
}.

(** What the run finds around it and cannot change: how many characters
    the device has room for in the target file ([None]: as many as
    needed), and which characters the encoding of the standard output
    has. *)
Record env : Type := Env {
  disk_room : option nat;
  stdout_has : char -> bool
}.

(** The device takes the whole of [c]. *)
Definition has_room (E : env) (c : text) : bool :=
  match disk_room E with
  | None => true
  | Some n => length c <=? n
  end.

(** What the device holds of [c] when it does not take the whole. *)
Definition kept (E : env) (c : text) : text :=
  match disk_room E with
  | None => c
  | Some n => firstn n c
  end.

(** The standard output can encode every character of [line]. *)
Definition can_print (E : env) (line : text) : bool :=
  forallb (stdout_has E) line.

Arguments has_room : simpl never.
Arguments kept : simpl never.
Arguments can_print : simpl never.

Definition M (A : Type) : Type := state -> result A * state.

Definition ret {A : Type} (a : A) : M A := fun st => (Ok a, st).

Definition bind {A B : Type} (m : M A) (k : A -> M B) : M B :=
  fun st =>
    match m st with
    | (Ok a, st') => k a st'
    | (Raise e, st') => (Raise e, st')
    | (Beyond, st') => (Beyond, st')
    end.

Definition lift {A : Type} (r : result A) : M A := fun st => (r, st).

Notation "x <- m ;; k" := (bind m (fun x => k))
  (at level 61, m at next level, right associativity).
Notation "m ;;; k" := (bind m (fun _ => k))
  (at level 61, right associativity).

(** Reading in text mode with [newline=None]: [\r\n] and a lone [\r]
    both arrive as [\n]. *)
Fixpoint universal_newlines (s : text) : text :=
  match s with
  | [] => []
  | c :: s' =>
      if (c =? CR)%N then
        LF :: match s' with
              | d :: s'' =>
                  if (d =? LF)%N then universal_newlines s''
                  else universal_newlines s'
              | [] => []
              end
      else c :: universal_newlines s'
  end.

(** [with open(path, 'r', encoding='utf-8') as f: f.read()] *)
Definition read_file : M text := fun st =>
  match target st with
  | None => (Raise FileNotFoundError, st)
  | Some f =>
      if readable f then (Ok (universal_newlines (data f)), st)
      else (Raise PermissionError, st)
  end.

(** [with open(path, 'w', encoding='utf-8', newline='\n') as f: f.write(c)]:
    the file is truncated and rewritten, no newline translation; a missing
    file is created.  A path that may not be opened for writing is left as
    it is; a device that runs out of room leaves the file with what it
    took of the text. *)
Definition write_file (E : env) (c : text) : M unit := fun st =>
  match target st with
  | None =>
      if has_room E c then
        (Ok tt, State (Some (File true true c)) (content st) (stdout st))
      else
        (Raise OSError,
         State (Some (File true true (kept E c))) (content st) (stdout st))
  | Some f =>
      if writable f then
        if has_room E c then
          (Ok tt,
           State (Some (File (readable f) true c)) (content st) (stdout st))
        else
          (Raise OSError,
           State (Some (File (readable f) true (kept E c)))
                 (content st) (stdout st))
      else (Raise PermissionError, st)
  end.

(** [content = ...]: the variable is rebound. *)
Definition assign (c : text) : M unit := fun st =>
  (Ok tt, State (target st) (Some c) (stdout st)).

(** [print(...)]: one more line on the standard output, when its
    encoding has every character of the line (the line feed that ends the
    line is taken to be encodable); otherwise the encoder raises and
    nothing is printed. *)
Definition print (E : env) (line : text) : M unit := fun st =>
  if can_print E line then
    (Ok tt, State (target st) (content st) (stdout st ++ [line]))
  else (Raise UnicodeEncodeError, st).

(** ** The rules and the script *)

(** Line 14, a raw string: the backslashes belong to the pattern. *)
Definition pattern1 : text :=
  str "if \(!this\.isInitialized \|\| !this\.supabaseUrl \|\| !this\.supabaseAnonKey\)".

(** Line 15. *)
Definition repl1 : text := str "if (!this.isInitialized)".

(** Line 21, a raw string. *)
Definition pattern2 : text :=
  str "if \(!this\.supabaseUrl\) throw new Error\(\'Supabase URL not set\'\);".

(** Line 22, an ordinary string literal: [\n] is a line feed and [\'] an
    apostrophe. *)
Definition repl2 : text :=
  str "// PHASE 2: Get env vars directly instead of caching" ++ [LF] ++
  str "    const supabaseUrl = import.meta.env.VITE_SUPABASE_URL || '';" ++ [LF] ++
  str "    const supabaseAnonKey = import.meta.env.VITE_SUPABASE_ANON_KEY || '';" ++ [LF] ++
  str "    if (!supabaseUrl) throw new Error('Supabase URL not set');".

(** Line 34: U+2705 and the message. *)
Definition message : text :=
  9989%N :: str " Fixed supabaseUrl/supabaseAnonKey references!".

(** The body of the script with its four string literals as parameters,
    run in the environment [E]. *)
Definition script_with (E : env) (pat1 rep1 pat2 rep2 : text) : M unit :=
  c0 <- read_file ;;
  assign c0 ;;;
  c1 <- lift (re_sub pat1 rep1 c0) ;;
  assign c1 ;;;
  c2 <- lift (re_sub pat2 rep2 c1) ;;
  assign c2 ;;;
  write_file E c2 ;;;
  print E message.

(** The script. *)
Definition script (E : env) : M unit :=
  script_with E pattern1 repl1 pattern2 repl2.

(** Environments for the examples: a disk without limit with a standard
    output in UTF-8 (every code point but the surrogates), the same disk
    with a standard output in ASCII, and a disk with room for ten
    characters. *)
Definition utf8_stdout (c : char) : bool :=
  ((c <? 55296) || ((57343 <? c) && (c <=? 1114111)))%N.

Definition ascii_stdout (c : char) : bool := (c <? 128)%N.

Definition roomy : env := Env None utf8_stdout.
Definition ascii_terminal : env := Env None ascii_stdout.
Definition full_disk : env := Env (Some 10) utf8_stdout.

Definition and_then {A B : Type} (r : result A) (k : A -> result B) : result B :=
  match r with
  | Ok a => k a
  | Raise e => Raise e
  | Beyond => Beyond
  end.

(** The two rebindings of [content] (lines 13 to 24) as a function of the
    text read. *)
Definition transform (T : text) : result text :=
  and_then (re_sub pattern1 repl1 T) (fun c1 => re_sub pattern2 repl2 c1).

(** The same two calls in the other order. *)
Definition transform_swapped (T : text) : result text :=
  and_then (re_sub pattern2 repl2 T) (fun c2 => re_sub pattern1 repl1 c2).


(** The literal sequences the two patterns denote. *)
Definition guard1 : text :=
  str "if (!this.isInitialized || !this.supabaseUrl || !this.supabaseAnonKey)".

Definition guard2 : text :=
  str "if (!this.supabaseUrl) throw new Error('Supabase URL not set');".

Definition rule1 : text -> text := Re.sub_lit guard1 repl1.
Definition rule2 : text -> text := Re.sub_lit guard2 repl2.

(** ** Occurrences, as the specification speaks of them *)

(** [p] occurs in [s] at offset [i]. *)
Definition occurs_at (p s : text) (i : nat) : bool :=
  Re.starts_with p (skipn i s).

(** [p] occurs somewhere in [s]. *)
Fixpoint occurs (p s : text) : bool :=
  Re.starts_with p s ||
  match s with
  | [] => false
  | _ :: s' => occurs p s'
  end.

(** Replace the spans of width [w] that start at the offsets [ms] by [r];
    [pos] is the offset of the head of [s]. *)
Fixpoint replace_spans (w : nat) (r : text) (ms : list nat) (pos : nat)
    (s : text) : text :=
  match ms with
  | [] => s
  | m :: ms' =>
      firstn (m - pos) s ++ r ++
      replace_spans w r ms' (m + w) (skipn (m - pos + w) s)
  end.

(** Offsets in increasing order, each span of width [w] ending before the
    next begins, none before [lo]. *)
Fixpoint spaced_from (w lo : nat) (ms : list nat) : Prop :=
  match ms with
  | [] => True
  | m :: ms' => lo <= m /\ spaced_from w (m + w) ms'
  end.

(** Two literal sequences agree as far as the shorter goes. *)
Definition compat (a b : text) : bool :=
  Re.starts_with a b || Re.starts_with b a.

(** [q] can begin at some position inside [w]. *)
Fixpoint begins_within (q w : text) : bool :=
  match w with
  | [] => false
  | _ :: w' => compat q w || begins_within q w'
  end.

(** An occurrence of [a] and an occurrence of [b] can share a character. *)
Definition clash (a b : text) : bool :=
  begins_within a b || begins_within b a.

(** [p] can overlap a shifted copy of itself. *)
Definition bordered (p : text) : bool := begins_within p (tl p).

(** No text holds an occurrence of [a] and an occurrence of [b] that share
    a character. *)
Definition never_overlap (a b : text) : Prop :=
  forall X i j,
    occurs_at a X i = true -> occurs_at b X j = true ->
    i + length a <= j \/ j + length b <= i.

(** The lines of a text, split at line feeds. *)
Fixpoint lines_from (cur : text) (s : text) : list text :=
  match s with
  | [] => [rev cur]
  | c :: s' =>
      if (c =? LF)%N then rev cur :: lines_from [] s'
      else lines_from (c :: cur) s'
  end.

Definition lines (s : text) : list text := lines_from [] s.

(** ** The model on small inputs *)

Example subn_overlapping :
  Re.subn_lit (str "aa") (str "X") (str "aaaaa") = (str "XXa", 2).
Proof. reflexivity. Qed.

Example finditer_overlapping :
  Re.finditer (str "aa") (str "aaaaa") = [0; 2].
Proof. reflexivity. Qed.

Example subn_empty_pattern :
  Re.subn_lit [] (str "-") (str "ab") = (str "-a-b-", 3).
Proof. reflexivity. Qed.

Example compile_escapes :
  Re.compile (str "f\(x\)\.y") = Re.Literal (str "f(x).y").
Proof. reflexivity. Qed.

Example compile_rejects :
  Re.compile (str "abc\") = Re.Malformed /\
  Re.compile (str "ab)") = Re.Malformed.
Proof. split; reflexivity. Qed.

Example compile_declines :
  Re.compile (str "a.b") = Re.Unsupported /\
  Re.compile (str "\d+") = Re.Unsupported.
Proof. split; reflexivity. Qed.

Example universal_newlines_mixed :
  universal_newlines (str "a" ++ [CR; LF] ++ str "b" ++ [CR] ++ str "c") =
  str "a" ++ [LF] ++ str "b" ++ [LF] ++ str "c".
Proof. reflexivity. Qed.

Example script_on_both_guards :
  script roomy (State (Some (File true true (guard1 ++ [LF] ++ guard2))) None []) =
  (Ok tt,
   State (Some (File true true (repl1 ++ [LF] ++ repl2)))
         (Some (repl1 ++ [LF] ++ repl2)) [message]).
Proof. vm_compute. reflexivity. Qed.

Example script_on_missing_file :
  script roomy (State None None []) =
  (Raise FileNotFoundError, State None None []).
Proof. reflexivity. Qed.

Example script_on_ascii_stdout :
  script ascii_terminal (State (Some (File true true guard1)) None []) =
  (Raise UnicodeEncodeError,
   State (Some (File true true repl1)) (Some repl1) []).
Proof. vm_compute. reflexivity. Qed.

Example script_on_full_disk :
  script full_disk (State (Some (File true true guard1)) None []) =
  (Raise OSError,
   State (Some (File true true (str "if (!this."))) (Some repl1) []).
Proof. vm_compute. reflexivity. Qed.

(** ** The matcher *)

Section Matcher.

Lemma starts_with_app (p t : text) : Re.starts_with p (p ++ t) = true.
Proof.
  induction p as [|a p IH]; simpl; [reflexivity|].
  now rewrite N.eqb_refl, IH.
Qed.

Lemma starts_with_split (p s : text) :
  Re.starts_with p s = true -> s = p ++ skipn (length p) s.
Proof.
  revert s; induction p as [|a p IH]; intros [|b s]; simpl; try easy.
  intros H. apply andb_true_iff in H as [Hab Hps].
  apply N.eqb_eq in Hab. subst b. f_equal. now apply IH.
Qed.

Lemma starts_with_iff (p s : text) :
  Re.starts_with p s = true <-> exists t, s = p ++ t.
Proof.
  split.
  - intros H. eexists. now apply starts_with_split.
  - intros [t ->]. apply starts_with_app.
Qed.

Lemma starts_with_length (p s : text) :
  Re.starts_with p s = true -> length p <= length s.
Proof.
  intros H. apply starts_with_split in H.
  apply (f_equal (@length _)) in H. rewrite length_app in H. lia.
Qed.

Lemma starts_with_app_l (p u v : text) :
  Re.starts_with p u = true -> Re.starts_with p (u ++ v) = true.
Proof.
  intros H. apply starts_with_iff in H as [t ->].
  rewrite <- app_assoc. apply starts_with_app.
Qed.

(** A match that fits inside [u] is a match of [u]. *)
Lemma starts_with_fits (p u v : text) :
  Re.starts_with p (u ++ v) = true -> length p <= length u ->
  Re.starts_with p u = true.
Proof.
  revert u; induction p as [|a p IH]; intros [|b u]; simpl; try easy; try lia.
  intros H Hl. apply andb_true_iff in H as [-> H]. simpl.
  apply IH with (1 := H). lia.
Qed.

(** A match that runs past [u] continues into what follows. *)
Lemma starts_with_past (p u v : text) :
  Re.starts_with p (u ++ v) = true -> length u <= length p ->
  Re.starts_with (skipn (length u) p) v = true.
Proof.
  revert p; induction u as [|b u IH]; intros [|a p]; simpl; try easy; try lia.
  intros H Hl. apply andb_true_iff in H as [_ H].
  apply IH with (1 := H). lia.
Qed.

Lemma starts_with_nil_r (p : text) :
  Re.starts_with p [] = true -> p = [].
Proof. now destruct p. Qed.

End Matcher.

(** ** The substitution loop *)

Lemma text_len_ind (P : text -> Prop) :
  (forall s, (forall t, length t < length s -> P t) -> P s) ->
  forall s, P s.
Proof.
  intros step s.
  assert (H : forall n t, length t < n -> P t).
  { induction n as [|n IH]; intros t Ht; [lia|].
    apply step. intros u Hu. apply IH. lia. }
  apply (H (S (length s))). lia.
Qed.

Lemma subn_from_skip (p r : text) (k : nat) (s : text) :
  Re.subn_from p r k s = Re.subn_from p r 0 (skipn k s).
Proof.
  revert k; induction s as [|c s IH]; intros [|k]; try reflexivity.
  simpl. apply IH.
Qed.

Section Scan.

Variables p r : text.
Hypothesis p_nonempty : p <> [].

Lemma subn_lit_nil : Re.subn_lit p r [] = ([], 0).
Proof. unfold Re.subn_lit. simpl. now destruct p. Qed.

Lemma subn_lit_hit (s : text) :
  Re.starts_with p s = true ->
  Re.subn_lit p r s =
  (r ++ fst (Re.subn_lit p r (skipn (length p) s)),
   S (snd (Re.subn_lit p r (skipn (length p) s)))).
Proof.
  unfold Re.subn_lit. intros H.
  destruct s as [|c s].
  - apply starts_with_nil_r in H. contradiction.
  - destruct p as [|a p']; [contradiction|].
    cbn [Re.subn_from]. rewrite H.
    rewrite subn_from_skip. simpl skipn.
    now destruct (Re.subn_from (a :: p') r 0 (skipn (length p') s)).
Qed.

Lemma subn_lit_miss (c : char) (s : text) :
  Re.starts_with p (c :: s) = false ->
  Re.subn_lit p r (c :: s) =
  (c :: fst (Re.subn_lit p r s), snd (Re.subn_lit p r s)).
Proof.
  unfold Re.subn_lit. intros H. simpl Re.subn_from. rewrite H.
  now destruct (Re.subn_from p r 0 s).
Qed.

Lemma sub_lit_nil : Re.sub_lit p r [] = [].
Proof. unfold Re.sub_lit. now rewrite subn_lit_nil. Qed.

Lemma sub_lit_hit (s : text) :
  Re.starts_with p s = true ->
  Re.sub_lit p r s = r ++ Re.sub_lit p r (skipn (length p) s).
Proof. intros H. unfold Re.sub_lit. now rewrite subn_lit_hit. Qed.

Lemma sub_lit_miss (c : char) (s : text) :
  Re.starts_with p (c :: s) = false ->
  Re.sub_lit p r (c :: s) = c :: Re.sub_lit p r s.
Proof. intros H. unfold Re.sub_lit. now rewrite subn_lit_miss. Qed.

Lemma sub_lit_app_hit (t : text) :
  Re.sub_lit p r (p ++ t) = r ++ Re.sub_lit p r t.
Proof.
  rewrite sub_lit_hit by apply starts_with_app.
  now rewrite skipn_app, skipn_all, Nat.sub_diag.
Qed.

End Scan.

(** ** Overlaps between literal sequences *)

Section Overlap.

Lemma compat_sym (a b : text) : compat a b = compat b a.
Proof. unfold compat. apply orb_comm. Qed.

Lemma begins_within_skipn (q w : text) (j : nat) :
  begins_within q w = false -> j < length w -> compat q (skipn j w) = false.
Proof.
  revert j; induction w as [|b w IH]; simpl; intros j H Hj; [lia|].
  apply orb_false_iff in H as [H1 H2].
  destruct j as [|j]; [exact H1|]. apply IH; [exact H2|lia].
Qed.

Lemma starts_with_cover (q w Y : text) :
  Re.starts_with q (w ++ Y) = true -> length w <= length q ->
  Re.starts_with w q = true.
Proof.
  revert q; induction w as [|b w IH]; intros [|a q]; simpl; try easy; try lia.
  intros H Hl. apply andb_true_iff in H as [Hab H].
  apply N.eqb_eq in Hab. subst b. rewrite N.eqb_refl. simpl.
  apply IH with (1 := H). lia.
Qed.

(** A match at the head of [w ++ Y] makes the pattern and [w] agree. *)
Lemma head_compat (q w Y : text) :
  Re.starts_with q (w ++ Y) = true -> compat q w = true.
Proof.
  intros H. unfold compat. apply orb_true_iff.
  destruct (Nat.le_gt_cases (length q) (length w)) as [Hl|Hl].
  - left. now apply starts_with_fits with (v := Y).
  - right. apply starts_with_cover with (1 := H). lia.
Qed.

(** A match at the head of [u ++ w ++ Y] that runs past [u] makes the
    rest of the pattern and [w] agree. *)
Lemma reach_compat (q u w Y : text) :
  Re.starts_with q (u ++ w ++ Y) = true -> length u < length q ->
  compat (skipn (length u) q) w = true.
Proof.
  intros H Hl. apply head_compat with (Y := Y).
  apply starts_with_past with (1 := H). lia.
Qed.

Lemma occurs_pass (q w Y : text) :
  begins_within q w = false -> occurs q (w ++ Y) = occurs q Y.
Proof.
  induction w as [|b w IH]; [reflexivity|]. simpl begins_within.
  intros H. apply orb_false_iff in H as [H1 H2].
  change ((b :: w) ++ Y) with (b :: w ++ Y). cbn [occurs].
  rewrite (IH H2).
  destruct (Re.starts_with q (b :: w ++ Y)) eqn:E; [|reflexivity].
  apply (head_compat q (b :: w) Y) in E. congruence.
Qed.

Lemma occurs_nonempty (p s : text) : occurs p s = false -> p <> [].
Proof. intros H ->. now destruct s. Qed.

Lemma occurs_iff (p s : text) :
  occurs p s = true <-> exists a b, s = a ++ p ++ b.
Proof.
  split.
  - induction s as [|c s IH]; simpl; intros H.
    + rewrite orb_false_r in H. apply starts_with_nil_r in H. subst p.
      now exists [], [].
    + apply orb_true_iff in H as [H|H].
      * apply starts_with_iff in H as [t Ht]. now exists [], t.
      * destruct (IH H) as (a & b & ->). now exists (c :: a), b.
  - intros (a & b & ->). induction a as [|c a IH].
    + simpl app. destruct (p ++ b) eqn:E; simpl; rewrite <- E;
        now rewrite starts_with_app.
    + simpl. rewrite IH. apply orb_true_r.
Qed.

Lemma absent_of_occurs (p T : text) :
  occurs p T = false -> forall a b, T <> a ++ p ++ b.
Proof.
  intros Ho a b E.
  assert (H : occurs p T = true) by (apply occurs_iff; eauto).
  congruence.
Qed.

Lemma inside_compat (a b X : text) (i j : nat) :
  occurs_at a X i = true -> occurs_at b X j = true ->
  i <= j -> j < i + length a ->
  compat b (skipn (j - i) a) = true.
Proof.
  unfold occurs_at. intros Ha Hb Hij Hlt.
  apply starts_with_split in Ha.
  replace (skipn j X) with (skipn (j - i) (skipn i X)) in Hb
    by (rewrite skipn_skipn; f_equal; lia).
  rewrite Ha, skipn_app in Hb.
  replace (j - i - length a) with 0 in Hb by lia. simpl (skipn 0 _) in Hb.
  now apply head_compat in Hb.
Qed.

Lemma clash_never_overlap (a b : text) :
  clash a b = false -> never_overlap a b.
Proof.
  unfold clash. intros H X i j Ha Hb.
  apply orb_false_iff in H as [Hab Hba].
  destruct (Nat.le_gt_cases (i + length a) j) as [|H1]; [now left|].
  destruct (Nat.le_gt_cases (j + length b) i) as [|H2]; [now right|].
  exfalso. destruct (Nat.le_gt_cases i j) as [Hij|Hji].
  - pose proof (inside_compat a b X i j Ha Hb Hij H1) as Hc.
    rewrite (begins_within_skipn b a (j - i) Hba) in Hc by lia. discriminate.
  - pose proof (inside_compat b a X j i Hb Ha (Nat.lt_le_incl _ _ Hji) H2) as Hc.
    rewrite (begins_within_skipn a b (i - j) Hab) in Hc by lia. discriminate.
Qed.

End Overlap.

(** ** What a substitution does to the matches of a pattern *)

Section Passing.

Variables q t : text.
Hypothesis q_nonempty : q <> [].

(** The scan copies a stretch in which the pattern cannot begin. *)
Lemma sub_lit_pass (w Y : text) :
  begins_within q w = false ->
  Re.sub_lit q t (w ++ Y) = w ++ Re.sub_lit q t Y.
Proof.
  induction w as [|b w IH]; [reflexivity|]. simpl begins_within.
  intros H. apply orb_false_iff in H as [H1 H2].
  change ((b :: w) ++ Y) with (b :: w ++ Y).
  rewrite sub_lit_miss.
  - now rewrite (IH H2).
  - destruct (Re.starts_with q (b :: w ++ Y)) eqn:E; [|reflexivity].
    apply (head_compat q (b :: w) Y) in E. congruence.
Qed.

(** A text without the pattern passes through unchanged. *)
Lemma sub_lit_absent (s : text) :
  occurs q s = false -> Re.subn_lit q t s = (s, 0).
Proof.
  induction s as [|c s IH]; intros H.
  - now apply subn_lit_nil.
  - cbn [occurs] in H. apply orb_false_iff in H as [H1 H2].
    rewrite subn_lit_miss by exact H1. now rewrite (IH H2).
Qed.

End Passing.

Section Inserted.

Variables p r : text.
Hypothesis p_nonempty : p <> [].

(** A pattern [q] that cannot share a character with the replacement [r]
    matches at the head of a rewritten text only where it matched before. *)
Lemma hit_reflect (q : text) :
  begins_within r q = false ->
  forall s u,
    Re.starts_with q (u ++ Re.sub_lit p r s) = true ->
    Re.starts_with q (u ++ s) = true.
Proof.
  intros Hrq. induction s as [s IH] using text_len_ind. intros u H.
  destruct s as [|c s]; [now rewrite sub_lit_nil in H|].
  destruct (Re.starts_with p (c :: s)) eqn:E.
  - rewrite (sub_lit_hit p r p_nonempty _ E) in H.
    destruct (Nat.le_gt_cases (length q) (length u)) as [Hl|Hl].
    + apply starts_with_app_l. now apply starts_with_fits with (2 := Hl) in H.
    + apply reach_compat in H; [|exact Hl].
      rewrite compat_sym, (begins_within_skipn _ _ _ Hrq Hl) in H. discriminate.
  - rewrite (sub_lit_miss p r _ _ E) in H.
    change (u ++ c :: Re.sub_lit p r s) with (u ++ [c] ++ Re.sub_lit p r s) in H.
    rewrite app_assoc in H. apply IH in H; [|simpl; lia].
    now rewrite <- app_assoc in H.
Qed.

(** After the substitution no occurrence of the pattern is left, when the
    pattern and its replacement cannot share a character. *)
Lemma sub_lit_clears (s : text) :
  clash p r = false -> occurs p (Re.sub_lit p r s) = false.
Proof.
  unfold clash. intros H. apply orb_false_iff in H as [Hpr Hrp].
  induction s as [s IH] using text_len_ind.
  destruct s as [|c s].
  - rewrite (sub_lit_nil p r p_nonempty). simpl. destruct p; easy.
  - destruct (Re.starts_with p (c :: s)) eqn:E.
    + rewrite (sub_lit_hit p r p_nonempty _ E), (occurs_pass _ _ _ Hpr).
      apply IH. pose proof (starts_with_length _ _ E) as Hl.
      rewrite length_skipn. destruct p; [contradiction|simpl in *; lia].
    + rewrite (sub_lit_miss p r _ _ E). cbn [occurs].
      rewrite IH by (simpl; lia). rewrite orb_false_r.
      destruct (Re.starts_with p (c :: Re.sub_lit p r s)) eqn:E'; [|reflexivity].
      apply (hit_reflect _ Hrp s [c]) in E'. simpl in E'. congruence.
Qed.

Lemma sub_lit_idempotent (s : text) :
  clash p r = false ->
  Re.sub_lit p r (Re.sub_lit p r s) = Re.sub_lit p r s.
Proof.
  intros H. unfold Re.sub_lit at 1.
  now rewrite (sub_lit_absent p r p_nonempty _ (sub_lit_clears s H)).
Qed.

(** An occurrence of a pattern that cannot overlap itself splits the scan. *)
Lemma subn_lit_split (g Y : text) :
  bordered p = false ->
  Re.subn_lit p r (g ++ p ++ Y) =
  (Re.sub_lit p r g ++ r ++ Re.sub_lit p r Y,
   snd (Re.subn_lit p r g) + S (snd (Re.subn_lit p r Y))).
Proof.
  intros Hb. induction g as [g IH] using text_len_ind.
  destruct g as [|c g].
  - simpl app. rewrite (subn_lit_hit p r p_nonempty _ (starts_with_app p Y)).
    rewrite skipn_app, skipn_all, Nat.sub_diag. simpl app.
    now rewrite (sub_lit_nil p r p_nonempty), (subn_lit_nil p r p_nonempty).
  - destruct (Re.starts_with p ((c :: g) ++ p ++ Y)) eqn:E.
    + destruct (Nat.le_gt_cases (length p) (length (c :: g))) as [Hl|Hl].
      * pose proof (starts_with_fits _ _ _ E Hl) as Eg.
        rewrite (subn_lit_hit p r p_nonempty _ E).
        rewrite (sub_lit_hit p r p_nonempty _ Eg).
        rewrite (subn_lit_hit p r p_nonempty _ Eg).
        rewrite skipn_app.
        replace (length p - length (c :: g)) with 0 by lia. simpl (skipn 0 _).
        rewrite IH.
        -- cbn [fst snd]. now rewrite <- app_assoc.
        -- rewrite length_skipn. destruct p; [contradiction|simpl in *; lia].
      * exfalso. apply reach_compat in E; [|exact Hl].
        unfold bordered in Hb. destruct p as [|a p']; [contradiction|].
        simpl tl in Hb. simpl length in Hl.
        assert (Hj : length g < length p') by (simpl in Hl; lia).
        pose proof (begins_within_skipn _ _ _ Hb Hj) as Hc.
        simpl skipn in E. rewrite compat_sym in E. congruence.
    + assert (Eg : Re.starts_with p (c :: g) = false).
      { destruct (Re.starts_with p (c :: g)) eqn:Eg; [|reflexivity].
        apply starts_with_app_l with (v := p ++ Y) in Eg. congruence. }
      change ((c :: g) ++ p ++ Y) with (c :: g ++ p ++ Y) in *.
      rewrite (subn_lit_miss p r _ _ E), (sub_lit_miss p r _ _ Eg).
      rewrite (subn_lit_miss p r _ _ Eg), IH by (simpl; lia).
      reflexivity.
Qed.

Lemma sub_lit_split (g Y : text) :
  bordered p = false ->
  Re.sub_lit p r (g ++ p ++ Y) = Re.sub_lit p r g ++ r ++ Re.sub_lit p r Y.
Proof.
  intros Hb. unfold Re.sub_lit at 1. now rewrite subn_lit_split.
Qed.

End Inserted.

Section Commute.

Variables p r q t : text.
Hypothesis p_nonempty : p <> [].
Hypothesis q_nonempty : q <> [].
Hypothesis no_clash_pq : clash p q = false.
Hypothesis no_clash_pt : clash p t = false.
Hypothesis no_clash_qr : clash q r = false.

(** Two substitutions whose patterns and replacements cannot share a
    character can be applied in either order. *)
Lemma sub_lit_commute (s : text) :
  Re.sub_lit q t (Re.sub_lit p r s) = Re.sub_lit p r (Re.sub_lit q t s).
Proof.
  unfold clash in *.
  apply orb_false_iff in no_clash_pq as [Hpq Hqp].
  apply orb_false_iff in no_clash_pt as [Hpt Htp].
  apply orb_false_iff in no_clash_qr as [Hqr Hrq].
  induction s as [s IH] using text_len_ind.
  destruct s as [|c s].
  - now rewrite (sub_lit_nil p r p_nonempty), (sub_lit_nil q t q_nonempty),
      (sub_lit_nil p r p_nonempty).
  - destruct (Re.starts_with p (c :: s)) eqn:Ep.
    + pose proof (starts_with_split _ _ Ep) as Es.
      assert (Hlen : length (skipn (length p) (c :: s)) < length (c :: s)).
      { pose proof (starts_with_length _ _ Ep).
        rewrite length_skipn. destruct p; [contradiction|simpl in *; lia]. }
      rewrite (sub_lit_hit p r p_nonempty _ Ep).
      rewrite (sub_lit_pass q t _ _ Hqr).
      rewrite IH by exact Hlen.
      rewrite Es at 2.
      rewrite (sub_lit_pass q t _ _ Hqp).
      now rewrite (sub_lit_app_hit p r p_nonempty).
    + destruct (Re.starts_with q (c :: s)) eqn:Eq.
      * pose proof (starts_with_split _ _ Eq) as Es.
        assert (Hlen : length (skipn (length q) (c :: s)) < length (c :: s)).
        { pose proof (starts_with_length _ _ Eq).
          rewrite length_skipn. destruct q; [contradiction|simpl in *; lia]. }
        rewrite (sub_lit_hit q t q_nonempty _ Eq).
        rewrite (sub_lit_pass p r _ _ Hpt).
        rewrite <- IH by exact Hlen.
        rewrite Es at 1.
        rewrite (sub_lit_pass p r _ _ Hpq).
        now rewrite (sub_lit_app_hit q t q_nonempty).
      * rewrite (sub_lit_miss p r _ _ Ep), (sub_lit_miss q t _ _ Eq).
        assert (E1 : Re.starts_with p (c :: Re.sub_lit q t s) = false).
        { destruct (Re.starts_with p (c :: Re.sub_lit q t s)) eqn:E'; [|reflexivity].
          apply (hit_reflect q t q_nonempty p Htp s [c]) in E'.
          simpl in E'. congruence. }
        assert (E2 : Re.starts_with q (c :: Re.sub_lit p r s) = false).
        { destruct (Re.starts_with q (c :: Re.sub_lit p r s)) eqn:E'; [|reflexivity].
          apply (hit_reflect p r p_nonempty q Hrq s [c]) in E'.
          simpl in E'. congruence. }
        rewrite (sub_lit_miss q t _ _ E2), (sub_lit_miss p r _ _ E1).
        rewrite IH by (simpl; lia). reflexivity.
Qed.

End Commute.

(** ** The matches the scan finds *)

Lemma finditer_from_skip (p : text) (k pos : nat) (s : text) :
  p <> [] ->
  Re.finditer_from p k pos s = Re.finditer_from p 0 (pos + k) (skipn k s).
Proof.
  intros Hp. revert k pos; induction s as [|c s IH]; intros k pos.
  - rewrite skipn_nil. simpl. now destruct p.
  - destruct k as [|k].
    + now rewrite Nat.add_0_r.
    + simpl. rewrite IH. f_equal. lia.
Qed.

Lemma replace_spans_cons (w : nat) (r : text) (ms : list nat) (pos : nat)
    (c : char) (s : text) :
  spaced_from w (S pos) ms ->
  replace_spans w r ms pos (c :: s) = c :: replace_spans w r ms (S pos) s.
Proof.
  destruct ms as [|m ms]; [reflexivity|]. simpl. intros [Hm _].
  replace (m - pos) with (S (m - S pos)) by lia. reflexivity.
Qed.

Section Matches.

Variables p r : text.
Hypothesis p_nonempty : p <> [].

Lemma finditer_nil (pos : nat) : Re.finditer_from p 0 pos [] = [].
Proof. simpl. now destruct p. Qed.

Lemma finditer_hit (pos : nat) (s : text) :
  Re.starts_with p s = true ->
  Re.finditer_from p 0 pos s =
  pos :: Re.finditer_from p 0 (pos + length p) (skipn (length p) s).
Proof.
  intros H. destruct s as [|c s].
  - apply starts_with_nil_r in H. contradiction.
  - cbn [Re.finditer_from]. rewrite H. f_equal.
    rewrite (finditer_from_skip p _ _ _ p_nonempty).
    destruct p as [|a p']; [contradiction|]. simpl length.
    rewrite Nat.sub_1_r. simpl. f_equal. lia.
Qed.

Lemma finditer_miss (pos : nat) (c : char) (s : text) :
  Re.starts_with p (c :: s) = false ->
  Re.finditer_from p 0 pos (c :: s) = Re.finditer_from p 0 (S pos) s.
Proof. intros H. cbn [Re.finditer_from]. now rewrite H. Qed.

Lemma hit_shrinks (s : text) :
  Re.starts_with p s = true -> length (skipn (length p) s) < length s.
Proof.
  intros H. pose proof (starts_with_length _ _ H).
  rewrite length_skipn. destruct p; [contradiction|simpl in *; lia].
Qed.

(** As many replacements as matches. *)
Lemma count_matches (s : text) (pos : nat) :
  snd (Re.subn_lit p r s) = length (Re.finditer_from p 0 pos s).
Proof.
  revert pos. induction s as [s IH] using text_len_ind. intros pos.
  destruct s as [|c s].
  - now rewrite (subn_lit_nil p r p_nonempty), finditer_nil.
  - destruct (Re.starts_with p (c :: s)) eqn:E.
    + rewrite (subn_lit_hit p r p_nonempty _ E), (finditer_hit _ _ E).
      cbn [snd length]. f_equal. apply IH. now apply hit_shrinks.
    + rewrite (subn_lit_miss p r _ _ E), (finditer_miss _ _ _ E).
      cbn [snd]. apply IH. simpl. lia.
Qed.

(** The matches come in increasing order and do not overlap. *)
Lemma matches_spaced (s : text) (pos : nat) :
  spaced_from (length p) pos (Re.finditer_from p 0 pos s).
Proof.
  revert pos. induction s as [s IH] using text_len_ind. intros pos.
  destruct s as [|c s].
  - now rewrite finditer_nil.
  - destruct (Re.starts_with p (c :: s)) eqn:E.
    + rewrite (finditer_hit _ _ E). split; [lia|].
      apply IH. now apply hit_shrinks.
    + rewrite (finditer_miss _ _ _ E).
      assert (H : spaced_from (length p) (S pos) (Re.finditer_from p 0 (S pos) s))
        by (apply IH; simpl; lia).
      destruct (Re.finditer_from p 0 (S pos) s); [exact I|].
      simpl in *. split; [lia|tauto].
Qed.

(** The output is the input with the matched spans replaced. *)
Lemma sub_lit_spans (s : text) (pos : nat) :
  Re.sub_lit p r s =
  replace_spans (length p) r (Re.finditer_from p 0 pos s) pos s.
Proof.
  revert pos. induction s as [s IH] using text_len_ind. intros pos.
  destruct s as [|c s].
  - now rewrite (sub_lit_nil p r p_nonempty), finditer_nil.
  - destruct (Re.starts_with p (c :: s)) eqn:E.
    + rewrite (sub_lit_hit p r p_nonempty _ E), (finditer_hit _ _ E).
      cbn [replace_spans]. rewrite Nat.sub_diag. simpl firstn. simpl app.
      f_equal. apply IH. now apply hit_shrinks.
    + rewrite (sub_lit_miss p r _ _ E), (finditer_miss _ _ _ E).
      rewrite replace_spans_cons by apply matches_spaced.
      f_equal. apply IH. simpl. lia.
Qed.

(** Every match is an occurrence. *)
Lemma matches_occur (s : text) (pos m : nat) :
  In m (Re.finditer_from p 0 pos s) ->
  pos <= m /\ occurs_at p s (m - pos) = true.
Proof.
  revert pos. induction s as [s IH] using text_len_ind. intros pos.
  destruct s as [|c s].
  - now rewrite finditer_nil.
  - destruct (Re.starts_with p (c :: s)) eqn:E.
    + rewrite (finditer_hit _ _ E). intros [<-|H].
      * rewrite Nat.sub_diag. now split.
      * apply IH in H; [|now apply hit_shrinks]. destruct H as [Hm H].
        split; [lia|]. unfold occurs_at in *. rewrite skipn_skipn in H.
        now replace (m - pos) with (m - (pos + length p) + length p) by lia.
    + rewrite (finditer_miss _ _ _ E). intros H.
      apply IH in H; [|simpl; lia]. destruct H as [Hm H].
      split; [lia|]. unfold occurs_at in *.
      now replace (m - pos) with (S (m - S pos)) by lia.
Qed.

(** Every occurrence of a pattern that cannot overlap itself is a match. *)
Lemma occurrences_matched (s : text) (pos j : nat) :
  bordered p = false ->
  occurs_at p s j = true -> In (pos + j) (Re.finditer_from p 0 pos s).
Proof.
  intros Hb. revert pos j. induction s as [s IH] using text_len_ind.
  intros pos j H. unfold occurs_at in H.
  destruct s as [|c s].
  - rewrite skipn_nil in H. apply starts_with_nil_r in H. contradiction.
  - destruct (Re.starts_with p (c :: s)) eqn:E.
    + rewrite (finditer_hit _ _ E).
      destruct (Nat.eq_dec j 0) as [->|Hj0]; [left; lia|]. right.
      destruct (Nat.le_gt_cases (length p) j) as [Hl|Hl].
      * replace (pos + j) with (pos + length p + (j - length p)) by lia.
        apply IH; [now apply hit_shrinks|]. unfold occurs_at.
        rewrite skipn_skipn. now replace (j - length p + length p) with j by lia.
      * exfalso. rewrite (starts_with_split _ _ E) in H.
        rewrite skipn_app in H. replace (j - length p) with 0 in H by lia.
        simpl (skipn 0 _) in H. apply head_compat in H.
        unfold bordered in Hb. destruct p as [|a p']; [contradiction|].
        destruct j as [|j]; [contradiction|]. simpl in Hl, Hb, H.
        assert (Hj : j < length p') by lia.
        rewrite (begins_within_skipn _ _ _ Hb Hj) in H. discriminate.
    + rewrite (finditer_miss _ _ _ E).
      destruct j as [|j]; [simpl in H; congruence|].
      replace (pos + S j) with (S pos + j) by lia.
      apply IH; [simpl; lia|exact H].
Qed.

End Matches.

(** ** The two rules of the script *)

Lemma compile_pattern1 : Re.compile pattern1 = Re.Literal guard1.
Proof. vm_compute. reflexivity. Qed.

Lemma compile_pattern2 : Re.compile pattern2 = Re.Literal guard2.
Proof. vm_compute. reflexivity. Qed.

Lemma guard1_nonempty : guard1 <> [].
Proof. discriminate. Qed.

Lemma guard2_nonempty : guard2 <> [].
Proof. discriminate. Qed.

Lemma guard1_unbordered : bordered guard1 = false.
Proof. vm_compute. reflexivity. Qed.

Lemma guard2_unbordered : bordered guard2 = false.
Proof. vm_compute. reflexivity. Qed.

Lemma no_clash_guard1_repl1 : clash guard1 repl1 = false.
Proof. vm_compute. reflexivity. Qed.

Lemma no_clash_guard2_repl2 : clash guard2 repl2 = false.
Proof. vm_compute. reflexivity. Qed.

Lemma no_clash_guards : clash guard1 guard2 = false.
Proof. vm_compute. reflexivity. Qed.

Lemma no_clash_guard1_repl2 : clash guard1 repl2 = false.
Proof. vm_compute. reflexivity. Qed.

Lemma no_clash_guard2_repl1 : clash guard2 repl1 = false.
Proof. vm_compute. reflexivity. Qed.

Create HintDb rules.

#[local] Hint Resolve guard1_nonempty guard2_nonempty
  guard1_unbordered guard2_unbordered
  no_clash_guard1_repl1 no_clash_guard2_repl2 no_clash_guards
  no_clash_guard1_repl2 no_clash_guard2_repl1 : rules.

Lemma re_sub_literal (pattern repl p T : text) :
  Re.compile pattern = Re.Literal p ->
  Re.is_literal_template repl = true ->
  re_sub pattern repl T = Ok (Re.sub_lit p repl T).
Proof. intros Hc Hr. unfold re_sub. now rewrite Hc, Hr. Qed.

Lemma re_sub_rule1 (T : text) : re_sub pattern1 repl1 T = Ok (rule1 T).
Proof. apply re_sub_literal; [exact compile_pattern1|now vm_compute]. Qed.

Lemma re_sub_rule2 (T : text) : re_sub pattern2 repl2 T = Ok (rule2 T).
Proof. apply re_sub_literal; [exact compile_pattern2|now vm_compute]. Qed.

Lemma transform_rules (T : text) : transform T = Ok (rule2 (rule1 T)).
Proof. unfold transform. rewrite re_sub_rule1. simpl. apply re_sub_rule2. Qed.

Lemma rules_commute (T : text) : rule2 (rule1 T) = rule1 (rule2 T).
Proof.
  unfold rule1, rule2.
  apply sub_lit_commute;
    auto with rules.
Qed.

Lemma rule1_idempotent (T : text) : rule1 (rule1 T) = rule1 T.
Proof.
  apply sub_lit_idempotent;
    auto with rules.
Qed.

Lemma rule2_idempotent (T : text) : rule2 (rule2 T) = rule2 T.
Proof.
  apply sub_lit_idempotent;
    auto with rules.
Qed.

(** ** Running the script *)

Lemma script_with_written (E : env) (pat1 rep1 pat2 rep2 : text) (st : state)
    (f : file) (c1 c2 : text) :
  target st = Some f -> readable f = true -> writable f = true ->
  re_sub pat1 rep1 (universal_newlines (data f)) = Ok c1 ->
  re_sub pat2 rep2 c1 = Ok c2 ->
  has_room E c2 = true ->
  script_with E pat1 rep1 pat2 rep2 st =
  if can_print E message then
    (Ok tt, State (Some (File true true c2)) (Some c2) (stdout st ++ [message]))
  else
    (Raise UnicodeEncodeError,
     State (Some (File true true c2)) (Some c2) (stdout st)).
Proof.
  intros Ht Hr Hw H1 H2 Hroom.
  unfold script_with, bind, read_file, lift, assign, write_file, print.
  rewrite Ht, Hr, H1, H2. cbn. rewrite Ht, Hw, Hroom, Hr. cbn.
  now destruct (can_print E message).
Qed.

Lemma script_with_completes (E : env) (pat1 rep1 pat2 rep2 : text)
    (st : state) (f : file) (c1 c2 : text) :
  target st = Some f -> readable f = true -> writable f = true ->
  re_sub pat1 rep1 (universal_newlines (data f)) = Ok c1 ->
  re_sub pat2 rep2 c1 = Ok c2 ->
  has_room E c2 = true -> can_print E message = true ->
  script_with E pat1 rep1 pat2 rep2 st =
  (Ok tt, State (Some (File true true c2)) (Some c2) (stdout st ++ [message])).
Proof.
  intros Ht Hr Hw H1 H2 Hroom Hp.
  rewrite (script_with_written E _ _ _ _ st f c1 c2 Ht Hr Hw H1 H2 Hroom).
  now rewrite Hp.
Qed.

Lemma script_with_raises (E : env) (pat1 rep1 pat2 rep2 : text)
    (st st' : state) (e : exn) :
  script_with E pat1 rep1 pat2 rep2 st = (Raise e, st') ->
  e = FileNotFoundError \/ e = PermissionError \/ e = PatternError ->
  target st' = target st.
Proof.
  unfold script_with, bind, read_file, lift, assign, write_file, print.
  destruct st as [[f|] ct out]; cbn.
  - destruct (readable f).
    + destruct (re_sub pat1 rep1 _) as [c1| |]; cbn.
      * destruct (re_sub pat2 rep2 c1) as [c2| |]; cbn.
        -- destruct (writable f); [|intros H _; inversion H; reflexivity].
           destruct (has_room E c2); cbn.
           ++ destruct (can_print E message); intros H He; inversion H.
              subst e. destruct He as [He|[He|He]]; discriminate.
           ++ intros H He; inversion H.
              subst e. destruct He as [He|[He|He]]; discriminate.
        -- intros H _; inversion H; reflexivity.
        -- discriminate.
      * intros H _; inversion H; reflexivity.
      * discriminate.
    + intros H _; inversion H; reflexivity.
  - intros H _; inversion H; reflexivity.
Qed.

(** What the scan does with a pattern that cannot overlap itself. *)
Lemma scan_replaces_matches (p r T : text) :
  p <> [] -> bordered p = false ->
  Re.subn_lit p r T =
    (replace_spans (length p) r (Re.finditer p T) 0 T,
     length (Re.finditer p T)) /\
  spaced_from (length p) 0 (Re.finditer p T) /\
  (forall i, In i (Re.finditer p T) <-> occurs_at p T i = true).
Proof.
  intros Hp Hb. unfold Re.finditer. split; [|split].
  - rewrite (surjective_pairing (Re.subn_lit p r T)). f_equal.
    + apply (sub_lit_spans p r Hp T 0).
    + apply (count_matches p r Hp T 0).
  - apply matches_spaced. exact Hp.
  - intros i. split.
    + intros H. apply (matches_occur p Hp) in H as [_ H].
      now rewrite Nat.sub_0_r in H.
    + intros H. apply (occurrences_matched p Hp T 0 i Hb H).
Qed.

Lemma scan_two_occurrences (p r a b c : text) :
  p <> [] -> bordered p = false ->
  Re.subn_lit p r (a ++ p ++ b ++ p ++ c) =
    (Re.sub_lit p r a ++ r ++ Re.sub_lit p r b ++ r ++ Re.sub_lit p r c,
     snd (Re.subn_lit p r a) + snd (Re.subn_lit p r b) +
     snd (Re.subn_lit p r c) + 2).
Proof.
  intros Hp Hb.
  rewrite (subn_lit_split p r Hp a (b ++ p ++ c) Hb).
  rewrite (sub_lit_split p r Hp b c Hb).
  rewrite (subn_lit_split p r Hp b c Hb). cbn [snd]. f_equal. lia.
Qed.

Lemma script_with_diverted (E : env) (pat1 rep1 pat2 rep2 : text)
    (st st' : state) (r : result unit) :
  script_with E pat1 rep1 pat2 rep2 st = (r, st') ->
  target st' <> target st ->
  exists f c1 c2,
    target st = Some f /\
    re_sub pat1 rep1 (universal_newlines (data f)) = Ok c1 /\
    re_sub pat2 rep2 c1 = Ok c2 /\
    (((r = Ok tt \/ r = Raise UnicodeEncodeError) /\
      target st' = Some (File (readable f) true c2)) \/
     (r = Raise OSError /\
      target st' = Some (File (readable f) true (kept E c2)))).
Proof.
  unfold script_with, bind, read_file, lift, assign, write_file, print.
  destruct st as [[f|] ct out]; cbn.
  - destruct (readable f).
    + destruct (re_sub pat1 rep1 _) as [c1| |] eqn:E1; cbn.
      * destruct (re_sub pat2 rep2 c1) as [c2| |] eqn:E2; cbn.
        -- destruct (writable f);
             [|intros H Hd; inversion H; subst; cbn in *; contradiction].
           destruct (has_room E c2); cbn.
           ++ destruct (can_print E message); intros H Hd; inversion H;
                exists f, c1, c2; auto 10.
           ++ intros H Hd; inversion H. exists f, c1, c2. auto 10.
        -- intros H Hd; inversion H; subst; cbn in *; contradiction.
        -- intros H Hd; inversion H; subst; cbn in *; contradiction.
      * intros H Hd; inversion H; subst; cbn in *; contradiction.
      * intros H Hd; inversion H; subst; cbn in *; contradiction.
    + intros H Hd; inversion H; subst; cbn in *; contradiction.
  - intros H Hd; inversion H; subst; cbn in *; contradiction.
Qed.

Lemma script_with_malformed_first (E : env) (pat1 rep1 pat2 rep2 : text)
    (st : state) (f : file) :
  target st = Some f -> readable f = true ->
  Re.compile pat1 = Re.Malformed ->
  script_with E pat1 rep1 pat2 rep2 st =
  (Raise PatternError,
   State (target st) (Some (universal_newlines (data f))) (stdout st)).
Proof.
  destruct st as [tg ct out]. cbn. intros -> Hr Hc.
  unfold script_with, bind, read_file, lift, assign, re_sub. cbn.
  now rewrite Hr, Hc.
Qed.

Lemma script_with_malformed_second (E : env) (pat1 rep1 pat2 rep2 : text)
    (st : state) (f : file) (c1 : text) :
  target st = Some f -> readable f = true ->
  re_sub pat1 rep1 (universal_newlines (data f)) = Ok c1 ->
  Re.compile pat2 = Re.Malformed ->
  script_with E pat1 rep1 pat2 rep2 st =
  (Raise PatternError, State (target st) (Some c1) (stdout st)).
Proof.
  destruct st as [tg ct out]. cbn. intros -> Hr H1 Hc.
  unfold script_with, bind, read_file, lift, assign. cbn.
  rewrite Hr, H1. unfold re_sub. now rewrite Hc.
Qed.

(** ** The claims *)

(** C1: the two rules are applied in declaration order to one threaded
    text.  For every text [T] the two calls yield [rule2 (rule1 T)], the
    URL-check rule applied to the output of the guard-removal rule; a run
    on a readable and writable file that the device takes in full leaves
    exactly that text in the file and in [content], whether or not the
    confirmation can then be printed, and ends normally when it can; and
    the result differs from rule 2 applied to the original text (at the
    text that is the first guard). *)
Theorem rules_applied_in_order :
  (forall T,
     re_sub pattern1 repl1 T = Ok (rule1 T) /\
     re_sub pattern2 repl2 (rule1 T) = Ok (rule2 (rule1 T)) /\
     transform T = Ok (rule2 (rule1 T))) /\
  (forall E st f,
     target st = Some f -> readable f = true -> writable f = true ->
     has_room E (rule2 (rule1 (universal_newlines (data f)))) = true ->
     (exists r st',
        script E st = (r, st') /\
        target st' =
          Some (File true true (rule2 (rule1 (universal_newlines (data f))))) /\
        content st' = Some (rule2 (rule1 (universal_newlines (data f))))) /\
     (can_print E message = true ->
      script E st =
      (Ok tt,
       State (Some (File true true (rule2 (rule1 (universal_newlines (data f))))))
             (Some (rule2 (rule1 (universal_newlines (data f)))))
             (stdout st ++ [message])))) /\
  rule2 (rule1 guard1) <> rule2 guard1.
Proof.
  split; [|split].
  - intros T. split; [apply re_sub_rule1|]. split; [apply re_sub_rule2|].
    apply transform_rules.
  - intros E st f Ht Hr Hw Hroom.
    pose proof (script_with_written E pattern1 repl1 pattern2 repl2 st f
                  (rule1 (universal_newlines (data f)))
                  (rule2 (rule1 (universal_newlines (data f))))
                  Ht Hr Hw (re_sub_rule1 _) (re_sub_rule2 _) Hroom) as Hrun.
    fold (script E) in Hrun. split.
    + destruct (can_print E message); rewrite Hrun;
        eexists; eexists; (split; [reflexivity|split; reflexivity]).
    + intros Hp. now rewrite Hp in Hrun.
  - vm_compute. discriminate.
Qed.

Lemma rules_applied_in_order_witness :
  script roomy
    (State (Some (File true true (guard1 ++ [CR; LF] ++ guard2))) None []) =
  (Ok tt,
   State (Some (File true true (repl1 ++ [LF] ++ repl2)))
         (Some (repl1 ++ [LF] ++ repl2)) [message]).
Proof.
  refine (eq_trans
    (proj2 (proj1 (proj2 rules_applied_in_order) roomy
       (State (Some (File true true (guard1 ++ [CR; LF] ++ guard2))) None [])
       (File true true (guard1 ++ [CR; LF] ++ guard2))
       eq_refl eq_refl eq_refl eq_refl) eq_refl) _).
  vm_compute. reflexivity.
Defined.

(** C2, as stated: the line matched by rule 2 would become exactly three
    lines.  It becomes four: the replacement opens with a comment line. *)
Lemma replacement_block_is_not_three_lines :
  lines guard2 = [guard2] /\
  re_sub pattern2 repl2 guard2 = Ok repl2 /\
  length (lines repl2) = 4 /\
  length (lines repl2) <> 3.
Proof. vm_compute. repeat split; discriminate. Qed.

(** C2, amended: wherever the line
    "if (!this.supabaseUrl) throw new Error('Supabase URL not set');"
    stands, rule 2 puts a block of exactly four lines in its place (a
    comment, two declarations of local values, the modified guard); the
    text around it is scanned on its own, and kept verbatim when it holds
    no further occurrence of the line. *)
Theorem guard2_replaced_by_block :
  lines repl2 =
    [ str "// PHASE 2: Get env vars directly instead of caching";
      str "    const supabaseUrl = import.meta.env.VITE_SUPABASE_URL || '';";
      str "    const supabaseAnonKey = import.meta.env.VITE_SUPABASE_ANON_KEY || '';";
      str "    if (!supabaseUrl) throw new Error('Supabase URL not set');" ] /\
  (forall a b,
     re_sub pattern2 repl2 (a ++ guard2 ++ b) =
     Ok (rule2 a ++ repl2 ++ rule2 b)) /\
  (forall a b,
     occurs guard2 a = false -> occurs guard2 b = false ->
     re_sub pattern2 repl2 (a ++ guard2 ++ b) = Ok (a ++ repl2 ++ b)).
Proof.
  assert (Hs : forall a b, rule2 (a ++ guard2 ++ b) = rule2 a ++ repl2 ++ rule2 b).
  { intros a b. unfold rule2.
    apply sub_lit_split; auto with rules. }
  split; [|split].
  - vm_compute. reflexivity.
  - intros a b. now rewrite re_sub_rule2, Hs.
  - intros a b Ha Hb. rewrite re_sub_rule2, Hs. unfold rule2, Re.sub_lit.
    rewrite (sub_lit_absent guard2 repl2 guard2_nonempty a Ha).
    now rewrite (sub_lit_absent guard2 repl2 guard2_nonempty b Hb).
Qed.

Lemma guard2_replaced_by_block_witness :
  re_sub pattern2 repl2 (str "    " ++ guard2 ++ [LF]) =
  Ok (str "    " ++ repl2 ++ [LF]).
Proof.
  apply (proj2 (proj2 guard2_replaced_by_block) (str "    ") [LF]).
  - vm_compute. reflexivity.
  - vm_compute. reflexivity.
Defined.

(** C3, as stated: a malformed matcher would be rejected before any rule
    runs.  With a malformed second pattern (a lone backslash) the first
    rule has already rewritten [content] when the error is raised. *)
Lemma malformed_rule_found_after_earlier_rule :
  Re.compile (str "\") = Re.Malformed /\
  script_with roomy pattern1 repl1 (str "\") repl2
    (State (Some (File true true guard1)) None []) =
  (Raise PatternError,
   State (Some (File true true guard1)) (Some repl1) []) /\
  repl1 <> guard1.
Proof. vm_compute. repeat split; discriminate. Qed.

(** C3, amended: a malformed matcher is found when its own [re.sub] call
    runs, after the file has been read and after the earlier rule has been
    applied to the text in memory; the run raises the pattern error there,
    [content] holding the text as transformed so far, and the file and the
    output are untouched.  The two patterns of the script are well formed. *)
Theorem malformed_pattern_found_at_its_call (E : env)
    (pat1 rep1 pat2 rep2 : text) (st : state) (f : file) :
  target st = Some f -> readable f = true ->
  (Re.compile pat1 = Re.Malformed ->
   script_with E pat1 rep1 pat2 rep2 st =
   (Raise PatternError,
    State (target st) (Some (universal_newlines (data f))) (stdout st))) /\
  (forall c1,
     re_sub pat1 rep1 (universal_newlines (data f)) = Ok c1 ->
     Re.compile pat2 = Re.Malformed ->
     script_with E pat1 rep1 pat2 rep2 st =
     (Raise PatternError, State (target st) (Some c1) (stdout st))) /\
  Re.compile pattern1 = Re.Literal guard1 /\
  Re.compile pattern2 = Re.Literal guard2.
Proof.
  intros Ht Hr. split; [|split; [|split]].
  - now apply script_with_malformed_first.
  - intros c1. now apply script_with_malformed_second.
  - exact compile_pattern1.
  - exact compile_pattern2.
Qed.

Lemma malformed_pattern_found_at_its_call_witness :
  script_with roomy (str "guard)") repl1 pattern2 repl2
    (State (Some (File true true guard2)) None [str "earlier output"]) =
  (Raise PatternError,
   State (Some (File true true guard2)) (Some guard2) [str "earlier output"]).
Proof.
  apply (proj1 (malformed_pattern_found_at_its_call roomy
                  (str "guard)") repl1 pattern2 repl2
                  (State (Some (File true true guard2)) None [str "earlier output"])
                  (File true true guard2) eq_refl eq_refl)).
  vm_compute. reflexivity.
Defined.

(** C4: when the run ends in one of the exceptions of the read and of the
    rules (the file missing or unreadable, a matcher that does not
    compile), or in the refusal to open the file for writing, the target
    file is as it was before the run: the file is only ever changed by the
    write step, which is reached after both rule applications have
    returned. *)
Theorem file_unchanged_on_error (E : env) (pat1 rep1 pat2 rep2 : text)
    (st st' : state) :
  (forall e,
     script_with E pat1 rep1 pat2 rep2 st = (Raise e, st') ->
     e = FileNotFoundError \/ e = PermissionError \/ e = PatternError ->
     target st' = target st) /\
  (forall r,
     script_with E pat1 rep1 pat2 rep2 st = (r, st') ->
     target st' <> target st ->
     exists f c1 c2,
       target st = Some f /\
       re_sub pat1 rep1 (universal_newlines (data f)) = Ok c1 /\
       re_sub pat2 rep2 c1 = Ok c2 /\
       (((r = Ok tt \/ r = Raise UnicodeEncodeError) /\
         target st' = Some (File (readable f) true c2)) \/
        (r = Raise OSError /\
         target st' = Some (File (readable f) true (kept E c2))))).
Proof.
  split.
  - intros e. apply script_with_raises.
  - intros r. apply script_with_diverted.
Qed.

Lemma file_unchanged_on_error_witness :
  (script_with roomy pattern1 repl1 (str "\") repl2
     (State (Some (File true true guard1)) None []) =
   (Raise PatternError,
    State (Some (File true true guard1)) (Some repl1) []) /\
   target (State (Some (File true true guard1)) (Some repl1) []) =
   target (State (Some (File true true guard1)) None [])) /\
  (script roomy (State (Some (File false true guard1)) None []) =
   (Raise PermissionError, State (Some (File false true guard1)) None []) /\
   target (State (Some (File false true guard1)) None []) =
   target (State (Some (File false true guard1)) None [])).
Proof.
  split; split.
  - vm_compute. reflexivity.
  - apply (proj1 (file_unchanged_on_error roomy pattern1 repl1 (str "\") repl2
                    (State (Some (File true true guard1)) None [])
                    (State (Some (File true true guard1)) (Some repl1) []))
             PatternError).
    + vm_compute. reflexivity.
    + right. right. reflexivity.
  - vm_compute. reflexivity.
  - apply (proj1 (file_unchanged_on_error roomy pattern1 repl1 pattern2 repl2
                    (State (Some (File false true guard1)) None [])
                    (State (Some (File false true guard1)) None []))
             PermissionError).
    + vm_compute. reflexivity.
    + right. left. reflexivity.
Defined.

(** C5: rule 1 turns the text
    "if (!this.isInitialized || !this.supabaseUrl || !this.supabaseAnonKey)"
    into exactly "if (!this.isInitialized)"; wherever the guard stands in a
    document it is rewritten to the shortened guard, and no occurrence of
    it is left in the output. *)
Theorem guard1_rewritten :
  re_sub pattern1 repl1
    (str "if (!this.isInitialized || !this.supabaseUrl || !this.supabaseAnonKey)")
  = Ok (str "if (!this.isInitialized)") /\
  (forall a b,
     re_sub pattern1 repl1 (a ++ guard1 ++ b) =
     Ok (rule1 a ++ str "if (!this.isInitialized)" ++ rule1 b)) /\
  (forall T, exists T',
     re_sub pattern1 repl1 T = Ok T' /\ occurs guard1 T' = false).
Proof.
  split; [|split].
  - vm_compute. reflexivity.
  - intros a b. rewrite re_sub_rule1. f_equal. unfold rule1.
    apply sub_lit_split; auto with rules.
  - intros T. exists (rule1 T). split; [apply re_sub_rule1|].
    apply sub_lit_clears; auto with rules.
Qed.

(** C6: each rule replaces every match of its pattern, found left to
    right without overlap: the output is the input with the matched spans
    replaced, the replacements are as many as the matches, the matches are
    exactly the occurrences of the pattern, and a text in which the pattern
    stands twice has both occurrences replaced. *)
Theorem every_match_replaced (T : text) :
  let scanned (g r : text) :=
    Re.subn_lit g r T =
      (replace_spans (length g) r (Re.finditer g T) 0 T,
       length (Re.finditer g T)) /\
    spaced_from (length g) 0 (Re.finditer g T) /\
    (forall i, In i (Re.finditer g T) <-> occurs_at g T i = true) /\
    (forall a b c,
       Re.subn_lit g r (a ++ g ++ b ++ g ++ c) =
       (Re.sub_lit g r a ++ r ++ Re.sub_lit g r b ++ r ++ Re.sub_lit g r c,
        snd (Re.subn_lit g r a) + snd (Re.subn_lit g r b) +
        snd (Re.subn_lit g r c) + 2)) in
  (re_sub pattern1 repl1 T = Ok (fst (Re.subn_lit guard1 repl1 T)) /\
   scanned guard1 repl1) /\
  (re_sub pattern2 repl2 T = Ok (fst (Re.subn_lit guard2 repl2 T)) /\
   scanned guard2 repl2).
Proof.
  cbv zeta. split; (split; [|repeat split]).
  - apply re_sub_rule1.
  - apply scan_replaces_matches; auto with rules.
  - apply scan_replaces_matches; auto with rules.
  - apply (scan_replaces_matches guard1 repl1 T guard1_nonempty guard1_unbordered).
  - apply (scan_replaces_matches guard1 repl1 T guard1_nonempty guard1_unbordered).
  - intros a b c.
    apply scan_two_occurrences; auto with rules.
  - apply re_sub_rule2.
  - apply scan_replaces_matches; auto with rules.
  - apply scan_replaces_matches; auto with rules.
  - apply (scan_replaces_matches guard2 repl2 T guard2_nonempty guard2_unbordered).
  - apply (scan_replaces_matches guard2 repl2 T guard2_nonempty guard2_unbordered).
  - intros a b c.
    apply scan_two_occurrences; auto with rules.
Qed.

(** C7: a rule whose matcher has no occurrence in the text returns the
    text unchanged, as a normal result and with no match found. *)
Theorem absent_pattern_is_identity (pattern repl p T : text) :
  Re.compile pattern = Re.Literal p ->
  Re.is_literal_template repl = true ->
  (forall a b, T <> a ++ p ++ b) ->
  re_sub pattern repl T = Ok T /\ Re.finditer p T = [].
Proof.
  intros Hc Hr Habs.
  assert (Ho : occurs p T = false).
  { destruct (occurs p T) eqn:E; [|reflexivity].
    apply occurs_iff in E as (a & b & E). now apply Habs in E. }
  pose proof (occurs_nonempty _ _ Ho) as Hp.
  pose proof (sub_lit_absent p repl Hp T Ho) as Hs.
  split.
  - rewrite (re_sub_literal _ _ _ T Hc Hr). unfold Re.sub_lit. now rewrite Hs.
  - pose proof (count_matches p repl Hp T 0) as Hn. rewrite Hs in Hn.
    unfold Re.finditer. now destruct (Re.finditer_from p 0 0 T).
Qed.

Lemma absent_pattern_is_identity_witness :
  re_sub pattern1 repl1 (str "if (!this.isInitialized) return;") =
    Ok (str "if (!this.isInitialized) return;") /\
  Re.finditer guard1 (str "if (!this.isInitialized) return;") = [].
Proof.
  apply (absent_pattern_is_identity pattern1 repl1 guard1
           (str "if (!this.isInitialized) return;")).
  - vm_compute. reflexivity.
  - vm_compute. reflexivity.
  - apply absent_of_occurs. vm_compute. reflexivity.
Defined.




(** C9: the two-rule pipeline is idempotent: applied to its own output it
    returns that output, which holds no occurrence of either guard; in no
    text does a replacement share a character with a match of either
    guard, so no replacement holds or helps to form a new match. *)
Theorem pipeline_idempotent (T : text) :
  (exists T',
     transform T = Ok T' /\ transform T' = Ok T' /\
     occurs guard1 T' = false /\ occurs guard2 T' = false) /\
  never_overlap guard1 repl1 /\ never_overlap guard1 repl2 /\
  never_overlap guard2 repl1 /\ never_overlap guard2 repl2.
Proof.
  split;
    [|auto using clash_never_overlap with rules].
  exists (rule2 (rule1 T)). split; [apply transform_rules|].
  split; [|split].
  - rewrite transform_rules. f_equal.
    rewrite <- (rules_commute (rule1 T)), rule1_idempotent.
    apply rule2_idempotent.
  - rewrite rules_commute.
    apply sub_lit_clears; auto with rules.
  - apply sub_lit_clears; auto with rules.
Qed.

(** C10: the order of the two rules does not matter: rule 1 then rule 2
    and rule 2 then rule 1 give the same text; in no text do the two
    guards match overlapping spans, and in no text does a replacement
    share a character with a match of the other guard. *)
Theorem rule_order_irrelevant (T : text) :
  (exists T', transform T = Ok T' /\ transform_swapped T = Ok T') /\
  never_overlap guard1 guard2 /\
  never_overlap guard1 repl2 /\
  never_overlap guard2 repl1.
Proof.
  split.
  - exists (rule2 (rule1 T)). split; [apply transform_rules|].
    unfold transform_swapped. rewrite re_sub_rule2. simpl.
    rewrite re_sub_rule1. f_equal. symmetry. apply rules_commute.
  - auto using clash_never_overlap with rules.
Qed.

(** ** Line endings, sizes and reruns *)

Lemma universal_newlines_no_CR (s : text) : ~ In CR (universal_newlines s).
Proof.
  induction s as [s IH] using text_len_ind.
  destruct s as [|c s]; [easy|]. cbn [universal_newlines].
  destruct (c =? CR)%N eqn:Ec.
  - intros [H|H]; [discriminate|].
    destruct s as [|d s]; [easy|].
    destruct (d =? LF)%N; revert H; apply IH; simpl; lia.
  - intros [H|H].
    + subst c. now rewrite N.eqb_refl in Ec.
    + revert H. apply IH. simpl. lia.
Qed.

Lemma universal_newlines_id (s : text) :
  ~ In CR s -> universal_newlines s = s.
Proof.
  induction s as [|c s IH]; [reflexivity|]. intros H.
  cbn [universal_newlines].
  destruct (c =? CR)%N eqn:Ec.
  - apply N.eqb_eq in Ec. subst c. exfalso. apply H. now left.
  - f_equal. apply IH. intros Hin. apply H. now right.
Qed.

Lemma in_skipn (x : char) (n : nat) (s : text) : In x (skipn n s) -> In x s.
Proof.
  intros H. rewrite <- (firstn_skipn n s). apply in_or_app. now right.
Qed.

(** The scan only emits characters of the input and of the replacement. *)
Lemma sub_lit_chars (p r : text) (x : char) :
  p <> [] ->
  forall s, In x (Re.sub_lit p r s) -> In x r \/ In x s.
Proof.
  intros Hp. induction s as [s IH] using text_len_ind.
  destruct s as [|c s]; [now rewrite (sub_lit_nil p r Hp)|].
  destruct (Re.starts_with p (c :: s)) eqn:E.
  - rewrite (sub_lit_hit p r Hp _ E). intros H.
    apply in_app_or in H as [H|H]; [now left|].
    apply IH in H; [|now apply hit_shrinks].
    destruct H as [H|H]; [now left|]. right. now apply in_skipn in H.
  - rewrite (sub_lit_miss p r _ _ E). intros [H|H].
    + right. now left.
    + apply IH in H; [|simpl; lia]. destruct H as [H|H]; [now left|].
      right. now right.
Qed.

Lemma rules_no_CR (T : text) : ~ In CR T -> ~ In CR (rule2 (rule1 T)).
Proof.
  intros HT H. unfold rule2 in H.
  apply (sub_lit_chars guard2 repl2 CR guard2_nonempty) in H as [H|H].
  - revert H. vm_compute. intuition discriminate.
  - unfold rule1 in H.
    apply (sub_lit_chars guard1 repl1 CR guard1_nonempty) in H as [H|H].
    + revert H. vm_compute. intuition discriminate.
    + contradiction.
Qed.

Lemma rules_fixpoint (T : text) :
  rule2 (rule1 (rule2 (rule1 T))) = rule2 (rule1 T).
Proof.
  rewrite <- (rules_commute (rule1 T)), rule1_idempotent.
  apply rule2_idempotent.
Qed.

Lemma rules_clear (T : text) :
  occurs guard1 (rule2 (rule1 T)) = false /\
  occurs guard2 (rule2 (rule1 T)) = false.
Proof.
  split.
  - rewrite rules_commute. apply sub_lit_clears; auto with rules.
  - apply sub_lit_clears; auto with rules.
Qed.

(** What a run that reaches its end has done. *)
Lemma script_with_completed (E : env) (pat1 rep1 pat2 rep2 : text)
    (st st' : state) :
  script_with E pat1 rep1 pat2 rep2 st = (Ok tt, st') ->
  exists f c1 c2,
    target st = Some f /\ readable f = true /\ writable f = true /\
    re_sub pat1 rep1 (universal_newlines (data f)) = Ok c1 /\
    re_sub pat2 rep2 c1 = Ok c2 /\
    has_room E c2 = true /\ can_print E message = true /\
    st' = State (Some (File true true c2)) (Some c2) (stdout st ++ [message]).
Proof.
  unfold script_with, bind, read_file, lift, assign, write_file, print.
  destruct st as [[f|] ct out]; cbn; [|discriminate].
  destruct (readable f) eqn:Hr; [|discriminate].
  destruct (re_sub pat1 rep1 _) as [c1| |] eqn:E1; cbn; try discriminate.
  destruct (re_sub pat2 rep2 c1) as [c2| |] eqn:E2; cbn; try discriminate.
  destruct (writable f) eqn:Hw; [|discriminate].
  destruct (has_room E c2) eqn:Hroom; cbn; [|discriminate].
  destruct (can_print E message) eqn:Hp; [|discriminate].
  intros H. inversion H. exists f, c1, c2. rewrite Hr. repeat split; auto.
Qed.

Lemma script_completed (E : env) (st st' : state) :
  script E st = (Ok tt, st') ->
  exists f,
    target st = Some f /\ readable f = true /\ writable f = true /\
    has_room E (rule2 (rule1 (universal_newlines (data f)))) = true /\
    can_print E message = true /\
    st' = State (Some (File true true (rule2 (rule1 (universal_newlines (data f))))))
                (Some (rule2 (rule1 (universal_newlines (data f)))))
                (stdout st ++ [message]).
Proof.
  intros H. apply script_with_completed in H
    as (f & c1 & c2 & Ht & Hr & Hw & H1 & H2 & Hroom & Hp & ->).
  rewrite re_sub_rule1 in H1. inversion H1. subst c1.
  rewrite re_sub_rule2 in H2. inversion H2. subst c2.
  exists f. auto 10.
Qed.

Lemma script_with_prints (E : env) (pat1 rep1 pat2 rep2 : text)
    (st st' : state) (r : result unit) :
  script_with E pat1 rep1 pat2 rep2 st = (r, st') ->
  (r = Ok tt /\ stdout st' = stdout st ++ [message]) \/
  (r <> Ok tt /\ stdout st' = stdout st).
Proof.
  unfold script_with, bind, read_file, lift, assign, write_file, print.
  destruct st as [[f|] ct out]; cbn.
  - destruct (readable f).
    + destruct (re_sub pat1 rep1 _) as [c1| |]; cbn.
      * destruct (re_sub pat2 rep2 c1) as [c2| |]; cbn.
        -- destruct (writable f); [|intros H; inversion H; now right].
           destruct (has_room E c2); cbn; [|intros H; inversion H; now right].
           destruct (can_print E message); intros H; inversion H; cbn;
             [now left|now right].
        -- intros H; inversion H; now right.
        -- intros H; inversion H; now right.
      * intros H; inversion H; now right.
      * intros H; inversion H; now right.
    + intros H; inversion H; now right.
  - intros H; inversion H; now right.
Qed.

(** *** Sizes *)

Section Measure.

Variable f : text -> nat.
Hypothesis f_app : forall a b, f (a ++ b) = f a + f b.

Variables p r : text.
Hypothesis p_nonempty : p <> [].

(** Each replacement trades the measure of the pattern for that of the
    replacement. *)
Lemma sub_lit_measure (s : text) :
  f (Re.sub_lit p r s) + snd (Re.subn_lit p r s) * f p =
  f s + snd (Re.subn_lit p r s) * f r.
Proof.
  induction s as [s IH] using text_len_ind.
  destruct s as [|c s].
  - now rewrite (sub_lit_nil p r p_nonempty), (subn_lit_nil p r p_nonempty).
  - destruct (Re.starts_with p (c :: s)) eqn:E.
    + rewrite (sub_lit_hit p r p_nonempty _ E), (subn_lit_hit p r p_nonempty _ E).
      cbn [snd]. rewrite (starts_with_split _ _ E) at 3.
      rewrite !f_app.
      pose proof (IH _ (hit_shrinks p p_nonempty _ E)) as H.
      rewrite !Nat.mul_succ_l. lia.
    + rewrite (sub_lit_miss p r _ _ E), (subn_lit_miss p r _ _ E).
      cbn [snd].
      change (c :: Re.sub_lit p r s) with ([c] ++ Re.sub_lit p r s).
      change (c :: s) with ([c] ++ s). rewrite !f_app.
      pose proof (IH s (Nat.lt_succ_diag_r _)) as H. lia.
Qed.

End Measure.

Section Independent.

Variables p r q t : text.
Hypothesis p_nonempty : p <> [].
Hypothesis q_nonempty : q <> [].
Hypothesis no_clash_pq : clash p q = false.
Hypothesis no_clash_qr : clash q r = false.

Lemma count_pass (w Y : text) :
  begins_within q w = false ->
  snd (Re.subn_lit q t (w ++ Y)) = snd (Re.subn_lit q t Y).
Proof.
  induction w as [|b w IH]; [reflexivity|]. simpl begins_within.
  intros H. apply orb_false_iff in H as [H1 H2].
  change ((b :: w) ++ Y) with (b :: w ++ Y).
  rewrite subn_lit_miss.
  - cbn [snd]. now apply IH.
  - destruct (Re.starts_with q (b :: w ++ Y)) eqn:E; [|reflexivity].
    apply (head_compat q (b :: w) Y) in E. congruence.
Qed.

(** Substituting for [p] neither makes nor unmakes a match of [q]. *)
Lemma count_independent (s : text) :
  snd (Re.subn_lit q t (Re.sub_lit p r s)) = snd (Re.subn_lit q t s).
Proof.
  unfold clash in *.
  apply orb_false_iff in no_clash_pq as [Hpq Hqp].
  apply orb_false_iff in no_clash_qr as [Hqr Hrq].
  induction s as [s IH] using text_len_ind.
  destruct s as [|c s].
  - now rewrite (sub_lit_nil p r p_nonempty).
  - destruct (Re.starts_with p (c :: s)) eqn:Ep.
    + rewrite (sub_lit_hit p r p_nonempty _ Ep).
      rewrite (count_pass _ _ Hqr), (IH _ (hit_shrinks p p_nonempty _ Ep)).
      rewrite (starts_with_split _ _ Ep) at 2.
      now rewrite (count_pass _ _ Hqp).
    + rewrite (sub_lit_miss p r _ _ Ep).
      destruct (Re.starts_with q (c :: s)) eqn:Eq.
      * assert (Eq' : Re.starts_with q (c :: Re.sub_lit p r s) = true).
        { rewrite <- (sub_lit_miss p r _ _ Ep).
          rewrite (starts_with_split _ _ Eq) at 1.
          rewrite (sub_lit_pass p r _ _ Hpq). apply starts_with_app. }
        rewrite (subn_lit_hit q t q_nonempty _ Eq').
        rewrite (subn_lit_hit q t q_nonempty _ Eq). cbn [snd]. f_equal.
        rewrite <- (IH _ (hit_shrinks q q_nonempty _ Eq)). f_equal. f_equal.
        rewrite <- (sub_lit_miss p r _ _ Ep).
        rewrite (starts_with_split _ _ Eq) at 1.
        rewrite (sub_lit_pass p r _ _ Hpq).
        now rewrite skipn_app, skipn_all, Nat.sub_diag.
      * assert (E2 : Re.starts_with q (c :: Re.sub_lit p r s) = false).
        { destruct (Re.starts_with q (c :: Re.sub_lit p r s)) eqn:E'; [|reflexivity].
          apply (hit_reflect p r p_nonempty q Hrq s [c]) in E'.
          simpl in E'. congruence. }
        rewrite (subn_lit_miss q t _ _ E2), (subn_lit_miss q t _ _ Eq).
        cbn [snd]. apply IH. simpl. lia.
Qed.

End Independent.

Lemma lines_from_length (cur s : text) :
  length (lines_from cur s) = S (count_occ N.eq_dec s LF).
Proof.
  revert cur. induction s as [|c s IH]; intros cur; [reflexivity|].
  cbn [lines_from count_occ].
  destruct (c =? LF)%N eqn:E.
  - apply N.eqb_eq in E. subst c.
    destruct (N.eq_dec LF LF) as [_|H]; [|contradiction].
    cbn [length]. now rewrite IH.
  - apply N.eqb_neq in E.
    destruct (N.eq_dec c LF) as [H|_]; [contradiction|]. apply IH.
Qed.

Lemma rule1_measure (f : text -> nat) (T : text) :
  (forall a b, f (a ++ b) = f a + f b) ->
  f (rule1 T) + length (Re.finditer guard1 T) * f guard1 =
  f T + length (Re.finditer guard1 T) * f repl1.
Proof.
  intros Hf. unfold Re.finditer.
  rewrite <- (count_matches guard1 repl1 guard1_nonempty T 0).
  apply (sub_lit_measure f Hf guard1 repl1 guard1_nonempty T).
Qed.

Lemma rule2_after_rule1_count (T : text) :
  snd (Re.subn_lit guard2 repl2 (rule1 T)) = length (Re.finditer guard2 T).
Proof.
  unfold rule1, Re.finditer.
  rewrite (count_independent guard1 repl1 guard2 repl2);
    auto with rules.
  apply count_matches. auto with rules.
Qed.

Lemma rules_measure (f : text -> nat) (T : text) :
  (forall a b, f (a ++ b) = f a + f b) ->
  f (rule2 (rule1 T)) + length (Re.finditer guard1 T) * f guard1 +
    length (Re.finditer guard2 T) * f guard2 =
  f T + length (Re.finditer guard1 T) * f repl1 +
    length (Re.finditer guard2 T) * f repl2.
Proof.
  intros Hf.
  pose proof (rule1_measure f T Hf) as H1.
  pose proof (sub_lit_measure f Hf guard2 repl2 guard2_nonempty (rule1 T)) as H2.
  rewrite rule2_after_rule1_count in H2. fold (rule2 (rule1 T)) in H2. lia.
Qed.

(** ** Further properties of the script *)

(** X1: whatever line endings the file had, after a run that completes it
    holds no carriage return. *)
Theorem completed_run_leaves_no_CR (E : env) (st st' : state) :
  script E st = (Ok tt, st') ->
  exists f', target st' = Some f' /\ ~ In CR (data f').
Proof.
  intros H. apply script_completed in H as (f & _ & _ & _ & _ & _ & ->).
  eexists. split; [reflexivity|]. cbn.
  apply rules_no_CR, universal_newlines_no_CR.
Qed.

Lemma completed_run_leaves_no_CR_witness :
  exists f',
    target (State (Some (File true true (str "a" ++ [LF] ++ repl1 ++ [LF])))
                  (Some (str "a" ++ [LF] ++ repl1 ++ [LF])) [message]) = Some f' /\
    ~ In CR (data f').
Proof.
  apply (completed_run_leaves_no_CR roomy
           (State (Some (File true true (str "a" ++ [CR; LF] ++ guard1 ++ [CR]))) None [])).
  vm_compute. reflexivity.
Defined.

(** X2: a second run on the file a completed run has left completes too
    and leaves the file, and the text in [content], as they are. *)
Theorem rerun_changes_nothing (E : env) (st st' : state) :
  script E st = (Ok tt, st') ->
  exists st'',
    script E st' = (Ok tt, st'') /\
    target st'' = target st' /\
    content st'' = content st'.
Proof.
  intros H. apply script_completed in H as (f & _ & _ & _ & Hroom & Hp & ->).
  set (c := rule2 (rule1 (universal_newlines (data f)))) in *.
  assert (Hnc : ~ In CR c) by apply rules_no_CR, universal_newlines_no_CR.
  assert (Hfix : rule2 (rule1 c) = c) by apply rules_fixpoint.
  exists (State (Some (File true true (rule2 (rule1 c))))
                (Some (rule2 (rule1 c)))
                ((stdout st ++ [message]) ++ [message])).
  split.
  - unfold script.
    apply script_with_completes with (f := File true true c) (c1 := rule1 c);
      [reflexivity|reflexivity|reflexivity| |apply re_sub_rule2| |exact Hp].
    + change (data (File true true c)) with c.
      rewrite (universal_newlines_id c Hnc). apply re_sub_rule1.
    + now rewrite Hfix.
  - cbn [target content]. rewrite Hfix. split; reflexivity.
Qed.

Lemma rerun_changes_nothing_witness :
  exists st'',
    script roomy (State (Some (File true true (repl1 ++ [LF] ++ repl2)))
                        (Some (repl1 ++ [LF] ++ repl2)) [message]) =
      (Ok tt, st'') /\
    target st'' = Some (File true true (repl1 ++ [LF] ++ repl2)) /\
    content st'' = Some (repl1 ++ [LF] ++ repl2).
Proof.
  apply (rerun_changes_nothing roomy
           (State (Some (File true true (guard1 ++ [CR; LF] ++ guard2))) None [])).
  vm_compute. reflexivity.
Defined.

(** X3: a run that completes leaves the text of the file as it was exactly
    when there was nothing to do: no carriage return and neither guard. *)
Theorem file_kept_iff_nothing_to_do (E : env) (st st' : state) (f : file) :
  script E st = (Ok tt, st') -> target st = Some f ->
  exists f',
    target st' = Some f' /\
    (data f' = data f <->
     ~ In CR (data f) /\
     occurs guard1 (data f) = false /\ occurs guard2 (data f) = false).
Proof.
  intros H Hf. apply script_completed in H as (f0 & Ht & _ & _ & _ & _ & ->).
  rewrite Hf in Ht. inversion Ht. subst f0.
  eexists. split; [reflexivity|]. cbn [data]. split.
  - intros H.
    assert (Hcr : ~ In CR (data f)).
    { rewrite <- H. apply rules_no_CR, universal_newlines_no_CR. }
    split; [exact Hcr|]. rewrite <- H. apply rules_clear.
  - intros (Hcr & H1 & H2). rewrite (universal_newlines_id _ Hcr).
    unfold rule1, rule2, Re.sub_lit.
    rewrite (sub_lit_absent guard1 repl1 guard1_nonempty _ H1). cbn [fst].
    now rewrite (sub_lit_absent guard2 repl2 guard2_nonempty _ H2).
Qed.

Lemma file_kept_iff_nothing_to_do_witness :
  exists f',
    target (State (Some (File true true (str "const x = 1;")))
                  (Some (str "const x = 1;")) [message]) = Some f' /\
    (data f' = str "const x = 1;" <->
     ~ In CR (str "const x = 1;") /\
     occurs guard1 (str "const x = 1;") = false /\
     occurs guard2 (str "const x = 1;") = false).
Proof.
  apply (file_kept_iff_nothing_to_do roomy
           (State (Some (File true true (str "const x = 1;"))) None [])
           (State (Some (File true true (str "const x = 1;")))
                  (Some (str "const x = 1;")) [message])
           (File true true (str "const x = 1;"))).
  - vm_compute. reflexivity.
  - reflexivity.
Defined.

(** X4: the two rules change the length of the text by what their
    replacements add or remove: each match of the first guard in the
    input shortens it by 46 characters, each match of the second guard
    lengthens it by 191. *)
Theorem output_length (T : text) :
  exists T',
    transform T = Ok T' /\
    length T' + 46 * length (Re.finditer guard1 T) =
    length T + 191 * length (Re.finditer guard2 T).
Proof.
  exists (rule2 (rule1 T)). split; [apply transform_rules|].
  pose proof (rules_measure (@length char) T (@length_app char)) as H.
  change (length guard1) with 70 in H. change (length repl1) with 24 in H.
  change (length guard2) with 63 in H. change (length repl2) with 254 in H.
  lia.
Qed.

(** X5: the first rule keeps the number of lines, the second adds three
    lines for each of its matches in the input. *)
Theorem output_line_count (T : text) :
  exists T',
    transform T = Ok T' /\
    length (lines (rule1 T)) = length (lines T) /\
    length (lines T') = length (lines T) + 3 * length (Re.finditer guard2 T).
Proof.
  exists (rule2 (rule1 T)). split; [apply transform_rules|].
  unfold lines. rewrite !lines_from_length.
  assert (Hf : forall a b : text,
             count_occ N.eq_dec (a ++ b) LF =
             count_occ N.eq_dec a LF + count_occ N.eq_dec b LF)
    by (intros a b; apply count_occ_app).
  pose proof (rule1_measure (fun s => count_occ N.eq_dec s LF) T Hf) as H1.
  pose proof (rules_measure (fun s => count_occ N.eq_dec s LF) T Hf) as H2.
  cbv beta in H1, H2.
  assert (E1 : count_occ N.eq_dec guard1 LF = 0) by (vm_compute; reflexivity).
  assert (E2 : count_occ N.eq_dec repl1 LF = 0) by (vm_compute; reflexivity).
  assert (E3 : count_occ N.eq_dec guard2 LF = 0) by (vm_compute; reflexivity).
  assert (E4 : count_occ N.eq_dec repl2 LF = 3) by (vm_compute; reflexivity).
  rewrite E1, E2 in H1. rewrite E1, E2, E3, E4 in H2. lia.
Qed.

(** X6: the confirmation is printed only by a run that completes: when
    the run ends in any other way the standard output is as it was. *)
Theorem nothing_printed_unless_completed (E : env)
    (pat1 rep1 pat2 rep2 : text) (st st' : state) (r : result unit) :
  script_with E pat1 rep1 pat2 rep2 st = (r, st') ->
  r <> Ok tt ->
  stdout st' = stdout st.
Proof.
  intros H Hr. apply script_with_prints in H as [[H _]|[_ H]];
    [contradiction|exact H].
Qed.

Lemma nothing_printed_unless_completed_witness :
  (script_with roomy pattern1 repl1 (str "\") repl2
     (State (Some (File true true guard1)) None [str "earlier output"]) =
   (Raise PatternError,
    State (Some (File true true guard1)) (Some repl1) [str "earlier output"]) /\
   stdout (State (Some (File true true guard1)) (Some repl1) [str "earlier output"]) =
   stdout (State (Some (File true true guard1)) None [str "earlier output"])) /\
  (script ascii_terminal
     (State (Some (File true true guard1)) None [str "earlier output"]) =
   (Raise UnicodeEncodeError,
    State (Some (File true true repl1)) (Some repl1) [str "earlier output"]) /\
   stdout (State (Some (File true true repl1)) (Some repl1) [str "earlier output"]) =
   stdout (State (Some (File true true guard1)) None [str "earlier output"])).
Proof.
  split; (split; [vm_compute; reflexivity|]).
  - apply (nothing_printed_unless_completed roomy pattern1 repl1 (str "\") repl2
             (State (Some (File true true guard1)) None [str "earlier output"])
             (State (Some (File true true guard1)) (Some repl1) [str "earlier output"])
             (Raise PatternError)).
    + vm_compute. reflexivity.
    + discriminate.
  - apply (nothing_printed_unless_completed ascii_terminal
             pattern1 repl1 pattern2 repl2
             (State (Some (File true true guard1)) None [str "earlier output"])
             (State (Some (File true true repl1)) (Some repl1) [str "earlier output"])
             (Raise UnicodeEncodeError)).
    + vm_compute. reflexivity.
    + discriminate.
Defined.

(** X7: neither rule makes or unmakes a match of the other: each guard
    is matched as often in the output of the other rule as in the input. *)
Theorem rules_do_not_feed_each_other (T : text) :
  length (Re.finditer guard2 (rule1 T)) = length (Re.finditer guard2 T) /\
  length (Re.finditer guard1 (rule2 T)) = length (Re.finditer guard1 T).
Proof.
  assert (Hsym : clash guard2 guard1 = false)
    by (unfold clash; rewrite orb_comm; apply no_clash_guards).
  unfold Re.finditer, rule1, rule2. split.
  - rewrite <- !(count_matches guard2 repl2 guard2_nonempty _ 0).
    apply count_independent; auto with rules.
  - rewrite <- !(count_matches guard1 repl1 guard1_nonempty _ 0).
    apply count_independent; auto with rules.
Qed.
